(** * The qutebrowser statusbar: message queue, pop timer and display state

    A shallow embedding of [qutebrowser/widgets/statusbar/bar.py].  The
    Python object [StatusBar] becomes a record holding the attributes the
    methods read and write; every method becomes a function from the
    object before the call to the object after it.  The Qt objects the
    widget owns (timer, stacked layout, signals) are modelled by the
    little of their state that the methods observe. *)

From Stdlib Require Import List String Ascii Bool ZArith Lia.
Import ListNotations.
Local Open Scope string_scope.
Local Open Scope list_scope.

(** ** collections.deque *)

Module Deque.

Definition deque (A : Type) : Type := list A.

Inductive IndexError : Type := pop_from_an_empty_deque.

Definition empty {A} : deque A := [].

(** [deque.append(x)]: add to the right end. *)
Definition append {A} (x : A) (d : deque A) : deque A := d ++ [x].

(** [deque.popleft()]: remove from the left end; raises [IndexError]
    on an empty deque. *)
Definition popleft {A} (d : deque A) : IndexError + (A * deque A) :=
  match d with
  | [] => inl pop_from_an_empty_deque
  | x :: rest => inr (x, rest)
  end.

(** Truth value of a deque ([if d:]): non-empty. *)
Definition truthy {A} (d : deque A) : bool :=
  match d with [] => false | _ :: _ => true end.

End Deque.

(** ** QTimer, as far as the statusbar looks at it *)

Module QTimer.

Record t : Type := mk { active : bool; interval : Z }.

Definition new : t := {| active := false; interval := 0 |}.
Definition setInterval (msec : Z) (tm : t) : t :=
  {| active := active tm; interval := msec |}.
Definition start (tm : t) : t :=
  {| active := true; interval := interval tm |}.
Definition stop (tm : t) : t :=
  {| active := false; interval := interval tm |}.
Definition isActive (tm : t) : bool := active tm.

End QTimer.

(** ** Geometry values carried by the signals *)

Record QPoint : Type := { px : Z; py : Z }.
Record QRect : Type := { rx : Z; ry : Z; rw : Z; rh : Z }.
Record QSize : Type := { sw : Z; sh : Z }.

Record QResizeEvent : Type := { size : QSize; oldSize : QSize }.
Record QMoveEvent : Type := { pos : QPoint; oldPos : QPoint }.

Inductive Signal : Type :=
| resized (geom : QRect)
| moved (p : QPoint).

(** ** The Text child widget: two text attributes set by the bar *)

Record Text : Type := { normaltext : string; temptext : string }.

(** The two widgets of [_stack]; the current one is what the model keeps. *)
Inductive StackWidget : Type := CurrentCmd | CurrentTxt.

(** Records written by [logging.debug] in [_pop_text]. *)
Inductive LogRecord : Type :=
| Displaying (kind : string) (text : string)
| Remaining (queue : Deque.deque (bool * string)).

(** ** The StatusBar object *)

Record StatusBar : Type := {
  _error : bool;
  txt : Text;
  _text_queue : Deque.deque (bool * string);
  _text_pop_timer : QTimer.t;
  _stack : StackWidget;
  geometry : QRect;
  stylesheet_sets : nat;      (* calls of setStyleSheet by the error setter *)
  emitted : list Signal;      (* signals emitted so far, oldest first *)
  debug_log : list LogRecord  (* logging.debug records, oldest first *)
}.

(** The configuration, read through [config.get(section, option)]. *)
Definition Config : Type := string -> string -> Z.

Section Setters.
Variable self : StatusBar.

Definition with_error (v : bool) : StatusBar :=
  {| _error := v; txt := txt self; _text_queue := _text_queue self;
     _text_pop_timer := _text_pop_timer self; _stack := _stack self;
     geometry := geometry self; stylesheet_sets := stylesheet_sets self;
     emitted := emitted self; debug_log := debug_log self |}.

Definition with_txt (v : Text) : StatusBar :=
  {| _error := _error self; txt := v; _text_queue := _text_queue self;
     _text_pop_timer := _text_pop_timer self; _stack := _stack self;
     geometry := geometry self; stylesheet_sets := stylesheet_sets self;
     emitted := emitted self; debug_log := debug_log self |}.

Definition with_queue (v : Deque.deque (bool * string)) : StatusBar :=
  {| _error := _error self; txt := txt self; _text_queue := v;
     _text_pop_timer := _text_pop_timer self; _stack := _stack self;
     geometry := geometry self; stylesheet_sets := stylesheet_sets self;
     emitted := emitted self; debug_log := debug_log self |}.

Definition with_timer (v : QTimer.t) : StatusBar :=
  {| _error := _error self; txt := txt self; _text_queue := _text_queue self;
     _text_pop_timer := v; _stack := _stack self;
     geometry := geometry self; stylesheet_sets := stylesheet_sets self;
     emitted := emitted self; debug_log := debug_log self |}.

Definition with_stack (v : StackWidget) : StatusBar :=
  {| _error := _error self; txt := txt self; _text_queue := _text_queue self;
     _text_pop_timer := _text_pop_timer self; _stack := v;
     geometry := geometry self; stylesheet_sets := stylesheet_sets self;
     emitted := emitted self; debug_log := debug_log self |}.

Definition with_stylesheet_sets (v : nat) : StatusBar :=
  {| _error := _error self; txt := txt self; _text_queue := _text_queue self;
     _text_pop_timer := _text_pop_timer self; _stack := _stack self;
     geometry := geometry self; stylesheet_sets := v;
     emitted := emitted self; debug_log := debug_log self |}.

Definition with_emitted (v : list Signal) : StatusBar :=
  {| _error := _error self; txt := txt self; _text_queue := _text_queue self;
     _text_pop_timer := _text_pop_timer self; _stack := _stack self;
     geometry := geometry self; stylesheet_sets := stylesheet_sets self;
     emitted := v; debug_log := debug_log self |}.

Definition with_debug_log (v : list LogRecord) : StatusBar :=
  {| _error := _error self; txt := txt self; _text_queue := _text_queue self;
     _text_pop_timer := _text_pop_timer self; _stack := _stack self;
     geometry := geometry self; stylesheet_sets := stylesheet_sets self;
     emitted := emitted self; debug_log := v |}.
End Setters.

(** Statements of a method body run left to right: [s |> f |> g]. *)
Notation "s |> f" := (f s) (at level 45, left associativity, only parsing).

(** *** Attribute assignments *)

(** [self.error = val]: the property setter stores the flag and re-sets
    the stylesheet. *)
Definition set_error (val : bool) (self : StatusBar) : StatusBar :=
  with_stylesheet_sets (with_error self val) (S (stylesheet_sets self)).

(** [self.error]: the property getter. *)
Definition error (self : StatusBar) : bool := _error self.

(** [self.txt.temptext = val] *)
Definition set_temptext (val : string) (self : StatusBar) : StatusBar :=
  with_txt self {| normaltext := normaltext (txt self); temptext := val |}.

(** [self.txt.normaltext = val] *)
Definition set_normaltext (val : string) (self : StatusBar) : StatusBar :=
  with_txt self {| normaltext := val; temptext := temptext (txt self) |}.

Definition logging_debug (r : LogRecord) (self : StatusBar) : StatusBar :=
  with_debug_log self (debug_log self ++ [r]).

Definition timer_start (self : StatusBar) : StatusBar :=
  with_timer self (QTimer.start (_text_pop_timer self)).

Definition timer_stop (self : StatusBar) : StatusBar :=
  with_timer self (QTimer.stop (_text_pop_timer self)).

Definition setCurrentWidget (w : StackWidget) (self : StatusBar) : StatusBar :=
  with_stack self w.

(** *** Methods *)

(** [_pop_text]: display a text in the statusbar and pop it from
    [_text_queue]; the [IndexError] of an empty deque is caught. *)
Definition _pop_text (self : StatusBar) : StatusBar :=
  match Deque.popleft (_text_queue self) with
  | inl _ =>
      self |> set_error false |> set_temptext "" |> timer_stop
  | inr ((err, text), rest) =>
      with_queue self rest
        |> logging_debug (Displaying (if err then "error" else "text") text)
        |> logging_debug (Remaining rest)
        |> set_error err
        |> set_temptext text
  end.

(** [_show_cmd_widget]: show command widget instead of temporary text. *)
Definition _show_cmd_widget (self : StatusBar) : StatusBar :=
  self |> timer_stop |> setCurrentWidget CurrentCmd.

(** [_hide_cmd_widget]: show temporary text instead of command widget. *)
Definition _hide_cmd_widget (self : StatusBar) : StatusBar :=
  (if Deque.truthy (_text_queue self)
      && negb (QTimer.isActive (_text_pop_timer self))
   then self |> _pop_text |> timer_start
   else self)
  |> setCurrentWidget CurrentTxt.

(** [disp_error]: display an error in the statusbar. *)
Definition disp_error (text : string) (self : StatusBar) : StatusBar :=
  with_queue self (Deque.append (true, text) (_text_queue self)) |> timer_start.

(** [disp_temp_text]: add a temporary text to the queue. *)
Definition disp_temp_text (text : string) (self : StatusBar) : StatusBar :=
  with_queue self (Deque.append (false, text) (_text_queue self)) |> timer_start.

(** [set_text]: set a normal (persistent) text in the status bar. *)
Definition set_text (val : string) (self : StatusBar) : StatusBar :=
  self |> set_normaltext val.

(** Truth value of a [str] ([if val:]): non-empty. *)
Definition str_truthy (val : string) : bool :=
  match val with EmptyString => false | String _ _ => true end.

(** [str.upper()] on the ASCII letters; other characters are kept. *)
Definition upper_ascii (c : ascii) : ascii :=
  let n := nat_of_ascii c in
  if (97 <=? n)%nat && (n <=? 122)%nat then ascii_of_nat (n - 32) else c.

Fixpoint upper (s : string) : string :=
  match s with
  | EmptyString => EmptyString
  | String c rest => String (upper_ascii c) (upper rest)
  end.

(** [mode in modeman.instance().passthrough] *)
Definition mode_in (mode : string) (passthrough : list string) : bool :=
  existsb (String.eqb mode) passthrough.

(** [on_mode_entered]: mark certain modes in the commandline. *)
Definition on_mode_entered (passthrough : list string) (mode : string)
    (self : StatusBar) : StatusBar :=
  if mode_in mode passthrough
  then self |> set_normaltext ("-- " ++ upper mode ++ " MODE --")%string
  else self.

(** [on_mode_left]: clear marked mode. *)
Definition on_mode_left (passthrough : list string) (mode : string)
    (self : StatusBar) : StatusBar :=
  if mode_in mode passthrough then self |> set_normaltext "" else self.

(** [on_statusbar_message]: called when javascript tries to set a
    statusbar message; empty strings are ignored. *)
Definition on_statusbar_message (val : string) (self : StatusBar) : StatusBar :=
  if str_truthy val then self |> set_temptext val else self.

(** [on_config_changed]: update message timeout when config changed. *)
Definition on_config_changed (config : Config) (section option : string)
    (self : StatusBar) : StatusBar :=
  if String.eqb section "general" && String.eqb option "message-timeout"
  then with_timer self
         (QTimer.setInterval (config "general" "message-timeout")
            (_text_pop_timer self))
  else self.

(** [self.resized.emit(..)], [self.moved.emit(..)] *)
Definition emit (sig : Signal) (self : StatusBar) : StatusBar :=
  with_emitted self (emitted self ++ [sig]).

Section Events.
(** The handlers of the base class [QWidget], called through [super()]. *)
Variable QWidget_resizeEvent : QResizeEvent -> StatusBar -> StatusBar.
Variable QWidget_moveEvent : QMoveEvent -> StatusBar -> StatusBar.

(** [resizeEvent]: extend resizeEvent of QWidget to emit a resized
    signal afterwards. *)
Definition resizeEvent (e : QResizeEvent) (self : StatusBar) : StatusBar :=
  let self := self |> QWidget_resizeEvent e in
  self |> emit (resized (geometry self)).

(** [moveEvent]: extend moveEvent of QWidget to emit a moved signal
    afterwards. *)
Definition moveEvent (e : QMoveEvent) (self : StatusBar) : StatusBar :=
  self |> QWidget_moveEvent e |> emit (moved (pos e)).
End Events.

(** [__init__], as far as the attributes above go: an empty queue, a
    stopped timer with the configured interval, the command widget added
    to the stack first and then hidden by [_hide_cmd_widget]. *)
Definition __init__ (config : Config) (geom : QRect) : StatusBar :=
  {| _error := false;
     txt := {| normaltext := ""; temptext := "" |};
     _text_queue := Deque.empty;
     _text_pop_timer :=
       QTimer.setInterval (config "general" "message-timeout") QTimer.new;
     _stack := CurrentCmd;
     geometry := geom;
     stylesheet_sets := 0;
     emitted := [];
     debug_log := [] |}
  |> _hide_cmd_widget.

(** ** Sequences of calls on the queue and the timer *)

Inductive Call : Type :=
| call_disp_error (text : string)
| call_disp_temp_text (text : string)
| call_pop_text
| call_show_cmd_widget
| call_hide_cmd_widget.

Definition call (c : Call) : StatusBar -> StatusBar :=
  match c with
  | call_disp_error text => disp_error text
  | call_disp_temp_text text => disp_temp_text text
  | call_pop_text => _pop_text
  | call_show_cmd_widget => _show_cmd_widget
  | call_hide_cmd_widget => _hide_cmd_widget
  end.

(** The calls run in order, the head of the list first. *)
Definition run (calls : list Call) (self : StatusBar) : StatusBar :=
  fold_left (fun s c => call c s) calls self.

(** A state is reachable when some sequence of calls leads to it from a
    freshly constructed statusbar. *)
Definition reachable (self : StatusBar) : Prop :=
  exists config geom calls, self = run calls (__init__ config geom).

(** What the user is shown of a message: the error flag and the text. *)
Definition displayed (self : StatusBar) : bool * string :=
  (error self, temptext (txt self)).

Definition timer_active (self : StatusBar) : bool :=
  QTimer.isActive (_text_pop_timer self).

(** The messages shown by [n] successive ticks, oldest first. *)
Fixpoint ticks (n : nat) (self : StatusBar) : list (bool * string) * StatusBar :=
  match n with
  | O => ([], self)
  | S n' =>
      let self := _pop_text self in
      let '(shown, final) := ticks n' self in
      (displayed self :: shown, final)
  end.



(** The messages the producer calls enqueue. *)
Definition produced_by (c : Call) : list (bool * string) :=
  match c with
  | call_disp_error text => [(true, text)]
  | call_disp_temp_text text => [(false, text)]
  | _ => []
  end.

Definition produced (calls : list Call) : list (bool * string) :=
  flat_map produced_by calls.

(** While the text widget is the current one, pending messages have a
    running timer. *)
Definition pending_ticks (s : StatusBar) : Prop :=
  _stack s = CurrentTxt -> _text_queue s <> [] -> timer_active s = true.

(** ** Sequences of calls on all slots *)

(** The slots and private methods of the statusbar other than the
    event handlers.  [on_config_changed] carries the configuration in
    force when the signal arrives. *)
Inductive Slot : Type :=
| slot_call (c : Call)
| slot_set_text (val : string)
| slot_on_mode_entered (mode : string)
| slot_on_mode_left (mode : string)
| slot_on_statusbar_message (val : string)
| slot_on_config_changed (config : Config) (section option : string).

Definition slot (passthrough : list string) (sl : Slot)
    : StatusBar -> StatusBar :=
  match sl with
  | slot_call c => call c
  | slot_set_text val => set_text val
  | slot_on_mode_entered mode => on_mode_entered passthrough mode
  | slot_on_mode_left mode => on_mode_left passthrough mode
  | slot_on_statusbar_message val => on_statusbar_message val
  | slot_on_config_changed config section option =>
      on_config_changed config section option
  end.

Definition run_slots (passthrough : list string) (slots : list Slot)
    (self : StatusBar) : StatusBar :=
  fold_left (fun s sl => slot passthrough sl s) slots self.

(** The messages enqueued by a sequence of slot calls, in order. *)
Definition slots_produced (slots : list Slot) : list (bool * string) :=
  flat_map (fun sl => match sl with
                      | slot_call c => produced_by c
                      | _ => []
                      end) slots.

(** The messages [_pop_text] has displayed, read back from the records
    it logged: one [Displaying] record per message. *)
Definition shown_record (r : LogRecord) : list (bool * string) :=
  match r with
  | Displaying kind text => [(String.eqb kind "error", text)]
  | Remaining _ => []
  end.

Definition shown (log : list LogRecord) : list (bool * string) :=
  flat_map shown_record log.

(** Nothing pending, nothing displayed, the timer stopped. *)
Definition idle (self : StatusBar) : Prop :=
  _text_queue self = [] /\ timer_active self = false /\
  displayed self = (false, "").

(** The display is cleared, or shows a message [_pop_text] logged. *)
Definition shows_logged (s : StatusBar) : Prop :=
  displayed s = (false, "") \/ In (displayed s) (shown (debug_log s)).

(** *** Concrete statusbars, used to run the methods *)

Definition default_config : Config := fun _ _ => 2000%Z.

Definition fresh : StatusBar :=
  __init__ default_config {| rx := 0; ry := 580; rw := 800; rh := 20 |}.

(** One error pending, the timer running. *)
Definition one_pending : StatusBar := run [call_disp_error "boom"] fresh.

(** The last message has just been popped by a tick. *)
Definition just_drained : StatusBar :=
  run [call_disp_error "boom"; call_pop_text] fresh.

(** A message arrived, then the command widget was shown. *)
Definition typing_command : StatusBar :=
  run [call_disp_temp_text "saved"; call_disp_error "boom";
       call_show_cmd_widget] fresh.



(** ** The utility helpers exercised by tests/unit/utils/test_utils.py *)

Module Utils.

(** A Python [str] is a sequence of Unicode code points. *)
Definition char : Type := N.
Definition str : Type := list char.

Definition str_of (s : string) : str :=
  map N_of_ascii (list_ascii_of_string s).

Inductive Exception : Type := ValueError.

Inductive result (A : Type) : Type :=
| Return (a : A)
| Raise (e : Exception).
Arguments Return {A} a.
Arguments Raise {A} e.

Definition ELLIPSIS : char := 8230%N.   (* U+2026 *)

(** Modelled from the spec: [utils.elide] is not among the sources, only
    its tests are.  The spec names "zero-size eliding" as invalid input
    that raises; the test table gives [elide('foo', 1)] as the ellipsis
    alone, [elide('foo', 3)] as ['foo'] and [elide('foobar', 3)] as
    ['fo'] followed by the ellipsis: a text longer than [length] keeps
    [length - 1] characters and ends in the ellipsis, which leaves no
    room for a length below one. *)
Definition elide (text : str) (length : Z) : result str :=
  if (length <? 1)%Z then Raise ValueError
  else if (Z.of_nat (List.length text) <=? length)%Z then Return text
  else Return (firstn (Z.to_nat (length - 1)) text ++ [ELLIPSIS]).

Definition is_digit (c : char) : bool := (48 <=? c)%N && (c <=? 57)%N.

Definition is_space (c : char) : bool :=
  ((9 <=? c)%N && (c <=? 13)%N) || (c =? 32)%N.

Definition digit_value (c : char) : Z := Z.of_N c - 48.

(** [int(ds)] for a string of decimal digits. *)
Definition int (ds : str) : Z :=
  fold_left (fun acc c => 10 * acc + digit_value c)%Z ds 0%Z.

(** [str.isdigit()], for the ASCII digits: non-empty, digits only. *)
Definition isdigit (s : str) : bool :=
  match s with [] => false | _ :: _ => forallb is_digit s end.

(** The longest prefix of characters satisfying [p], and the rest. *)
Fixpoint span (p : char -> bool) (s : str) : str * str :=
  match s with
  | [] => ([], [])
  | c :: r =>
      if p c then let '(a, b) := span p r in (c :: a, b) else ([], s)
  end.

Definition skip_spaces (s : str) : str := snd (span is_space s).

Definition dot : char := 46%N.
Definition unit_h : char := 104%N.
Definition unit_m : char := 109%N.
Definition unit_s : char := 115%N.

(** A number at the head of [s]: digits, then at most one fractional
    digit after a dot.  The value is in tenths. *)
Definition scan_number (s : str) : option (Z * str) :=
  match span is_digit s with
  | ([], _) => None
  | (ds, r) =>
      match r with
      | c :: d :: r' =>
          if (c =? dot)%N && is_digit d
          then Some (10 * int ds + digit_value d, r')%Z
          else Some (10 * int ds, r)%Z
      | _ => Some (10 * int ds, r)%Z
      end
  end.

(** An optional number followed by [unit] at the head of [s]; when it
    is absent nothing is consumed and the value is zero. *)
Definition scan_component (unit : char) (s : str) : Z * str :=
  match scan_number s with
  | Some (v, c :: r) => if (c =? unit)%N then (v, r) else (0%Z, s)
  | _ => (0%Z, s)
  end.

(** Modelled from the spec: [utils.parse_duration] is not among the
    sources, only its tests are.  The spec names "invalid duration
    strings" as input that raises; the test tables fix the format: a
    string of digits is a number of milliseconds, anything else is
    hours, minutes and seconds in this order, each optional, each a
    number with at most one fractional digit followed by [h], [m] or
    [s], with optional whitespace between them; the empty string and
    every other string raise [ValueError].  The result is in
    milliseconds, computed here exactly. *)
Definition parse_duration (duration : str) : result Z :=
  if isdigit duration then Return (int duration)
  else
    let '(hours, r) := scan_component unit_h duration in
    let '(minutes, r) := scan_component unit_m (skip_spaces r) in
    let '(seconds, r) := scan_component unit_s (skip_spaces r) in
    match r, duration with
    | [], _ :: _ => Return ((seconds + minutes * 60 + hours * 3600) * 100)%Z
    | _, _ => Raise ValueError
    end.

(** *** The duration format, stated on its own *)

Definition digits (ds : str) : Prop :=
  ds <> [] /\ Forall (fun c => is_digit c = true) ds.

Definition spaces (ws : str) : Prop :=
  Forall (fun c => is_space c = true) ws.

Inductive number : str -> Prop :=
| number_int ds : digits ds -> number ds
| number_frac ds d :
    digits ds -> is_digit d = true -> number (ds ++ [dot; d]).

Inductive component (unit : char) : str -> Prop :=
| component_absent : component unit []
| component_present n : number n -> component unit (n ++ [unit]).

Definition duration_format (d : str) : Prop :=
  exists h w1 m w2 s,
    component unit_h h /\ spaces w1 /\ component unit_m m /\
    spaces w2 /\ component unit_s s /\
    d = h ++ w1 ++ m ++ w2 ++ s.

Definition well_formed (d : str) : Prop :=
  d <> [] /\ (Forall (fun c => is_digit c = true) d \/ duration_format d).

Definition malformed (d : str) : Prop := ~ well_formed d.

(** *** Predicates used to follow the scan *)

(** The rest left by [span] does not start with a [p] character. *)
Definition stops (p : char -> bool) (r : str) : Prop :=
  match r with [] => True | c :: _ => p c = false end.

(** A unit letter: neither a digit nor the dot. *)
Definition unit_char (u : char) : Prop :=
  is_digit u = false /\ u <> dot.

(** The three stages of the scan, from the last to the first. *)
Definition seconds_ok (x : str) : Prop :=
  exists v, scan_component unit_s (skip_spaces x) = (v, []).

Definition minutes_ok (x : str) : Prop :=
  exists v r, scan_component unit_m (skip_spaces x) = (v, r) /\ seconds_ok r.

Definition hours_ok (x : str) : Prop :=
  exists v r, scan_component unit_h x = (v, r) /\ minutes_ok r.

End Utils.

(** * Properties of the statusbar *)

(** ** Elementary facts about the calls *)

Lemma reachable_fresh : reachable fresh.
Proof. exists default_config, (geometry fresh), []. reflexivity. Qed.

Lemma run_app calls1 calls2 s :
  run (calls1 ++ calls2) s = run calls2 (run calls1 s).
Proof. unfold run. apply fold_left_app. Qed.

Lemma reachable_call c s : reachable s -> reachable (call c s).
Proof.
  intros (config & geom & calls & ->).
  exists config, geom, (calls ++ [c]).
  now rewrite run_app.
Qed.

Lemma reachable_run calls s : reachable s -> reachable (run calls s).
Proof.
  revert s. induction calls as [|c calls IH]; intros s Hs; simpl.
  - exact Hs.
  - apply IH. now apply reachable_call.
Qed.

Lemma truthy_nonempty {A} (d : Deque.deque A) :
  Deque.truthy d = true <-> d <> [].
Proof. destruct d; simpl; split; congruence. Qed.

(** ** The invariant linking queue, timer and stack *)

Lemma pending_ticks_init config geom : pending_ticks (__init__ config geom).
Proof. intros _ H. now elim H. Qed.

Lemma pending_ticks_call c s : pending_ticks s -> pending_ticks (call c s).
Proof.
  unfold pending_ticks, timer_active.
  destruct s as [e t q [a i] st g n em lg].
  destruct c; simpl; try (intros; reflexivity || discriminate).
  - (* _pop_text *)
    unfold _pop_text; simpl.
    destruct q as [|[err text] rest]; simpl.
    + intros _ _ H. now elim H.
    + intros IH Hst _. apply IH; [exact Hst | discriminate].
  - (* _hide_cmd_widget *)
    unfold _hide_cmd_widget, _pop_text; simpl.
    destruct q as [|[err text] rest]; simpl.
    + intros _ _ H. now elim H.
    + destruct a; simpl; intros; reflexivity.
Qed.

Lemma pending_ticks_run calls s : pending_ticks s -> pending_ticks (run calls s).
Proof.
  revert s. induction calls as [|c calls IH]; intros s Hs; simpl.
  - exact Hs.
  - apply IH. now apply pending_ticks_call.
Qed.

(** C1, amended.  In every reachable state in which the text widget is
    the current widget of the stack (the command widget is hidden), a
    non-empty queue has an active pop timer.  Reachable means: obtained
    from a freshly constructed statusbar by any sequence of [disp_error],
    [disp_temp_text], [_pop_text], [_show_cmd_widget] and
    [_hide_cmd_widget] calls. *)
Theorem queue_nonempty_timer_active (s : StatusBar) :
  reachable s ->
  _stack s = CurrentTxt ->
  _text_queue s <> [] ->
  timer_active s = true.
Proof.
  intros (config & geom & calls & ->).
  apply pending_ticks_run, pending_ticks_init.
Qed.

Lemma queue_nonempty_timer_active_witness :
  reachable one_pending /\ _stack one_pending = CurrentTxt /\
  _text_queue one_pending <> [] /\ timer_active one_pending = true.
Proof.
  assert (R : reachable one_pending).
  { exists default_config, (geometry fresh), [call_disp_error "boom"].
    reflexivity. }
  assert (Q : _text_queue one_pending <> []) by (simpl; discriminate).
  split; [exact R|]. split; [reflexivity|]. split; [exact Q|].
  exact (queue_nonempty_timer_active one_pending R eq_refl Q).
Defined.

(** C1 as stated fails in both directions.  After [disp_error "boom"] and
    one tick the queue is empty while the timer is still active; after two
    producer calls and [_show_cmd_widget] the queue holds two messages
    while the timer is stopped.  Both states are reachable. *)
Lemma queue_iff_timer_counterexample :
  (reachable just_drained /\
   _text_queue just_drained = [] /\ timer_active just_drained = true) /\
  (reachable typing_command /\
   _text_queue typing_command = [(false, "saved"); (true, "boom")] /\
   timer_active typing_command = false) /\
  ~ (forall s, reachable s ->
       (_text_queue s <> [] <-> timer_active s = true)).
Proof.
  assert (R1 : reachable just_drained)
    by (apply reachable_run, reachable_fresh).
  assert (R2 : reachable typing_command)
    by (apply reachable_run, reachable_fresh).
  split; [|split].
  - repeat split. exact R1.
  - repeat split. exact R2.
  - intros H. destruct (H just_drained R1) as [_ H']. now apply H'.
Qed.

(** C2.  On a non-empty queue one tick removes exactly the head, shows
    its severity flag and its text, and leaves the rest of the queue as it
    was, in order; timer, stack and normal text are not touched. *)
Theorem pop_text_shows_head (s : StatusBar) err text rest :
  _text_queue s = (err, text) :: rest ->
  _text_queue (_pop_text s) = rest /\
  error (_pop_text s) = err /\
  temptext (txt (_pop_text s)) = text /\
  _text_pop_timer (_pop_text s) = _text_pop_timer s /\
  _stack (_pop_text s) = _stack s /\
  normaltext (txt (_pop_text s)) = normaltext (txt s).
Proof.
  intros Hq. unfold _pop_text. rewrite Hq. simpl. repeat split.
Qed.

Lemma pop_text_shows_head_witness :
  _text_queue typing_command = (false, "saved") :: [(true, "boom")] /\
  _text_queue (_pop_text typing_command) = [(true, "boom")] /\
  displayed (_pop_text typing_command) = (false, "saved").
Proof.
  pose proof (pop_text_shows_head typing_command false "saved"
                [(true, "boom")] eq_refl) as (Hq & He & Ht & _).
  split; [reflexivity|]. split; [exact Hq|].
  unfold displayed. now rewrite He, Ht.
Defined.

(** C3, amended.  The tick that pops the last pending message leaves the
    timer as it was; it is the following tick, which finds the queue
    empty, that stops the timer. *)
Theorem drain_stops_on_next_tick (s : StatusBar) (m : bool * string) :
  _text_queue s = [m] ->
  _text_queue (_pop_text s) = [] /\
  _text_pop_timer (_pop_text s) = _text_pop_timer s /\
  timer_active (_pop_text (_pop_text s)) = false.
Proof.
  intros Hq. unfold _pop_text at 1 2 4. rewrite Hq. destruct m as [err text].
  simpl. repeat split.
Qed.

Lemma drain_stops_on_next_tick_witness :
  _text_queue one_pending = [(true, "boom")] /\
  _text_queue (_pop_text one_pending) = [] /\
  _text_pop_timer (_pop_text one_pending) = _text_pop_timer one_pending /\
  timer_active (_pop_text (_pop_text one_pending)) = false.
Proof.
  split; [reflexivity|].
  exact (drain_stops_on_next_tick one_pending (true, "boom") eq_refl).
Defined.

(** C3 as stated fails.  With the single message [(True, "boom")] pending
    and the timer running, a tick pops it and leaves the queue empty, and
    the timer is still active after that tick. *)
Lemma drain_keeps_timer_counterexample :
  reachable one_pending /\
  _text_queue one_pending = [(true, "boom")] /\
  timer_active one_pending = true /\
  _text_queue (_pop_text one_pending) = [] /\
  timer_active (_pop_text one_pending) = true /\
  ~ (forall s, reachable s -> _text_queue s <> [] ->
       _text_queue (_pop_text s) = [] ->
       timer_active (_pop_text s) = false).
Proof.
  assert (R : reachable one_pending)
    by (apply reachable_run, reachable_fresh).
  repeat (split; [first [exact R | reflexivity]|]).
  intros H.
  specialize (H one_pending R).
  simpl in H. discriminate H; [discriminate | reflexivity].
Qed.

(** C4.  On an empty queue [popleft] raises [IndexError], which
    [_pop_text] catches: the call returns a statusbar whose error flag is
    false, whose temporary text is the empty string, whose timer is
    stopped and whose queue is still empty; nothing is logged. *)
Theorem pop_text_empty_fallback (s : StatusBar) :
  _text_queue s = [] ->
  Deque.popleft (_text_queue s) = inl Deque.pop_from_an_empty_deque /\
  _pop_text s = (s |> set_error false |> set_temptext "" |> timer_stop) /\
  error (_pop_text s) = false /\
  temptext (txt (_pop_text s)) = "" /\
  timer_active (_pop_text s) = false /\
  _text_queue (_pop_text s) = [] /\
  debug_log (_pop_text s) = debug_log s.
Proof.
  intros Hq. unfold _pop_text. rewrite Hq. simpl. repeat split. exact Hq.
Qed.

Lemma pop_text_empty_fallback_witness :
  _text_queue just_drained = [] /\
  displayed just_drained = (true, "boom") /\
  timer_active just_drained = true /\
  displayed (_pop_text just_drained) = (false, "") /\
  timer_active (_pop_text just_drained) = false /\
  _text_queue (_pop_text just_drained) = [].
Proof.
  pose proof (pop_text_empty_fallback just_drained eq_refl)
    as (_ & _ & He & Ht & Ha & Hq & _).
  do 3 (split; [reflexivity|]).
  split; [unfold displayed; now rewrite He, Ht|].
  split; [exact Ha | exact Hq].
Defined.

(** ** FIFO order *)

Lemma ticks_show_queue (q : list (bool * string)) : forall s,
  _text_queue s = q ->
  fst (ticks (List.length q) s) = q /\ _text_queue (snd (ticks (List.length q) s)) = [].
Proof.
  induction q as [|[err text] rest IH]; intros s Hq; simpl.
  - split; [reflexivity | exact Hq].
  - assert (Hrest : _text_queue (_pop_text s) = rest)
      by (unfold _pop_text; rewrite Hq; reflexivity).
    assert (Hd : displayed (_pop_text s) = (err, text))
      by (unfold _pop_text; rewrite Hq; reflexivity).
    destruct (IH _ Hrest) as [IH1 IH2].
    destruct (ticks (List.length rest) (_pop_text s)) as [shown final].
    simpl in *. now rewrite Hd, IH1.
Qed.

(** C5.  [disp_error] appends [(True, text)] and [disp_temp_text] appends
    [(False, text)] at the tail of the queue, the entries already there
    staying as they were; and as many ticks as there are pending messages
    show exactly these messages, in the order they were enqueued, and
    leave the queue empty. *)
Theorem producers_append_and_fifo (s : StatusBar) (text : string) :
  _text_queue (disp_error text s) = _text_queue s ++ [(true, text)] /\
  _text_queue (disp_temp_text text s) = _text_queue s ++ [(false, text)] /\
  fst (ticks (List.length (_text_queue s)) s) = _text_queue s /\
  fst (ticks (S (List.length (_text_queue s))) (disp_error text s))
    = _text_queue s ++ [(true, text)] /\
  fst (ticks (S (List.length (_text_queue s))) (disp_temp_text text s))
    = _text_queue s ++ [(false, text)].
Proof.
  split; [reflexivity|]. split; [reflexivity|].
  split; [apply ticks_show_queue; reflexivity|].
  split.
  - replace (S (List.length (_text_queue s)))
      with (List.length (_text_queue (disp_error text s)))
      by (simpl; unfold Deque.append; rewrite length_app; simpl; lia).
    apply (ticks_show_queue _ (disp_error text s)). reflexivity.
  - replace (S (List.length (_text_queue s)))
      with (List.length (_text_queue (disp_temp_text text s)))
      by (simpl; unfold Deque.append; rewrite length_app; simpl; lia).
    apply (ticks_show_queue _ (disp_temp_text text s)). reflexivity.
Qed.

(** ** Signals *)

(** C7.  Whatever the base class handlers do, [resizeEvent] ends by
    emitting [resized] with the geometry the statusbar then has, and
    [moveEvent] ends by emitting [moved] with the position carried by the
    event; neither emission is guarded by a condition. *)
Theorem resize_move_always_emit
    (QWidget_resizeEvent : QResizeEvent -> StatusBar -> StatusBar)
    (QWidget_moveEvent : QMoveEvent -> StatusBar -> StatusBar)
    (re : QResizeEvent) (me : QMoveEvent) (s : StatusBar) :
  emitted (resizeEvent QWidget_resizeEvent re s)
    = emitted (QWidget_resizeEvent re s)
        ++ [resized (geometry (QWidget_resizeEvent re s))] /\
  geometry (resizeEvent QWidget_resizeEvent re s)
    = geometry (QWidget_resizeEvent re s) /\
  emitted (moveEvent QWidget_moveEvent me s)
    = emitted (QWidget_moveEvent me s) ++ [moved (pos me)].
Proof. repeat split. Qed.

(** ** Frame properties *)

Lemma str_truthy_nonempty (val : string) :
  str_truthy val = true <-> val <> "".
Proof. destruct val; simpl; split; congruence. Qed.

(** C8.  [on_statusbar_message] with a non-empty string sets the
    temporary text to it and nothing else; with the empty string it
    returns the statusbar unchanged, so the temporary text cannot be
    cleared through this slot. *)
Theorem on_statusbar_message_ignores_empty (s : StatusBar) (val : string) :
  (val <> "" ->
     on_statusbar_message val s = set_temptext val s /\
     temptext (txt (on_statusbar_message val s)) = val /\
     normaltext (txt (on_statusbar_message val s)) = normaltext (txt s) /\
     error (on_statusbar_message val s) = error s /\
     _text_queue (on_statusbar_message val s) = _text_queue s /\
     _text_pop_timer (on_statusbar_message val s) = _text_pop_timer s) /\
  on_statusbar_message "" s = s.
Proof.
  split; [|reflexivity].
  intros Hval. apply str_truthy_nonempty in Hval.
  unfold on_statusbar_message. rewrite Hval. repeat split.
Qed.

Lemma on_statusbar_message_ignores_empty_witness :
  temptext (txt (on_statusbar_message "Loading" just_drained)) = "Loading" /\
  _text_queue (on_statusbar_message "Loading" just_drained) = [] /\
  temptext (txt (on_statusbar_message "" just_drained)) = "boom".
Proof.
  destruct (on_statusbar_message_ignores_empty just_drained "Loading")
    as [Hset _].
  destruct (Hset ltac:(discriminate)) as (_ & Ht & _ & _ & Hq & _).
  destruct (on_statusbar_message_ignores_empty just_drained "") as [_ Hempty].
  split; [exact Ht|]. split; [rewrite Hq; reflexivity|].
  rewrite Hempty. reflexivity.
Defined.





(** C10.  [disp_error] and [disp_temp_text] leave the displayed temporary
    text and error flag as they are: they append to the queue and start
    the timer.  The other methods that do not go through [_pop_text] keep
    the display as well; [_hide_cmd_widget] changes it exactly when it
    calls [_pop_text], and [on_statusbar_message] is the one other writer
    of the temporary text. *)
Theorem producers_keep_display (s : StatusBar) (text : string) :
  (displayed (disp_error text s) = displayed s /\
   timer_active (disp_error text s) = true) /\
  (displayed (disp_temp_text text s) = displayed s /\
   timer_active (disp_temp_text text s) = true) /\
  displayed (_show_cmd_widget s) = displayed s /\
  displayed (set_text text s) = displayed s /\
  (forall passthrough,
     displayed (on_mode_entered passthrough text s) = displayed s /\
     displayed (on_mode_left passthrough text s) = displayed s) /\
  (forall config section option,
     displayed (on_config_changed config section option s) = displayed s) /\
  displayed (_hide_cmd_widget s)
    = (if Deque.truthy (_text_queue s) && negb (timer_active s)
       then displayed (_pop_text s) else displayed s) /\
  error (on_statusbar_message text s) = error s.
Proof.
  do 4 (split; [repeat split|]).
  split.
  { intros passthrough. unfold on_mode_entered, on_mode_left.
    destruct (mode_in text passthrough); split; reflexivity. }
  split.
  { intros config section option. unfold on_config_changed.
    destruct (_ && _); reflexivity. }
  split.
  - unfold _hide_cmd_widget, timer_active.
    destruct (_ && _); reflexivity.
  - unfold on_statusbar_message. destruct (str_truthy text); reflexivity.
Qed.

(** * Properties of the utility helpers *)

Module UtilsFacts.
Import Utils.

(** ** Character classes *)

Lemma space_not_digit c : is_space c = true -> is_digit c = false.
Proof.
  unfold is_space, is_digit.
  rewrite orb_true_iff, andb_true_iff, !N.leb_le, N.eqb_eq.
  intros H. apply andb_false_iff. rewrite !N.leb_gt. lia.
Qed.

Lemma digit_not_space c : is_digit c = true -> is_space c = false.
Proof.
  intros Hd. destruct (is_space c) eqn:Hs; [|reflexivity].
  apply space_not_digit in Hs. congruence.
Qed.

(** ** [span] *)

Lemma span_split p s :
  s = fst (span p s) ++ snd (span p s) /\
  Forall (fun c => p c = true) (fst (span p s)).
Proof.
  induction s as [|c r [IH1 IH2]]; simpl.
  - split; [reflexivity | constructor].
  - destruct (p c) eqn:Hc.
    + destruct (span p r) as [a b]. simpl in *. split.
      * now f_equal.
      * now constructor.
    + simpl. split; [reflexivity | constructor].
Qed.

Lemma span_app p a r :
  Forall (fun c => p c = true) a -> stops p r -> span p (a ++ r) = (a, r).
Proof.
  intros Ha Hr. induction Ha as [|c a Hc _ IH]; simpl.
  - destruct r as [|c r]; [reflexivity|]. simpl in Hr |- *. now rewrite Hr.
  - now rewrite Hc, IH.
Qed.

Lemma skip_spaces_split s :
  exists w, spaces w /\ s = w ++ skip_spaces s.
Proof.
  exists (fst (span is_space s)). unfold skip_spaces, spaces.
  destruct (span_split is_space s) as [H1 H2]. now split.
Qed.

Lemma skip_spaces_app w x :
  spaces w -> skip_spaces (w ++ x) = skip_spaces x.
Proof.
  unfold skip_spaces. intros Hw. induction Hw as [|c w Hc _ IH]; simpl.
  - reflexivity.
  - rewrite Hc. destruct (span is_space (w ++ x)). exact IH.
Qed.

Lemma skip_spaces_stops x : stops is_space x -> skip_spaces x = x.
Proof.
  unfold skip_spaces. destruct x as [|c r]; simpl; [reflexivity|].
  now intros ->.
Qed.

(** ** Numbers and components: what the scanner accepts *)

Lemma scan_number_sound s v r :
  scan_number s = Some (v, r) -> exists n, number n /\ s = n ++ r.
Proof.
  unfold scan_number.
  destruct (span_split is_digit s) as [Hs Hds].
  destruct (span is_digit s) as [ds rest]. simpl in Hs, Hds.
  destruct ds as [|d0 ds]; [discriminate|].
  assert (Hdig : digits (d0 :: ds)) by (split; [discriminate | exact Hds]).
  destruct rest as [|c [|d r']].
  - intros [= <- <-]. exists (d0 :: ds). split; [now constructor | exact Hs].
  - intros [= <- <-]. exists (d0 :: ds). split; [now constructor | exact Hs].
  - destruct ((c =? dot)%N && is_digit d) eqn:Hfrac.
    + intros [= <- <-]. apply andb_true_iff in Hfrac as [Hc Hd].
      apply N.eqb_eq in Hc. subst c.
      exists ((d0 :: ds) ++ [dot; d]). split; [now constructor|].
      rewrite Hs, <- app_assoc. reflexivity.
    + intros [= <- <-]. exists (d0 :: ds).
      split; [now constructor | exact Hs].
Qed.

Lemma scan_component_sound unit s v r :
  scan_component unit s = (v, r) -> exists c, component unit c /\ s = c ++ r.
Proof.
  unfold scan_component.
  destruct (scan_number s) as [[v' [|c r']]|] eqn:Hn.
  - intros [= <- <-]. exists []. split; [constructor | reflexivity].
  - destruct (c =? unit)%N eqn:Hc.
    + intros [= <- <-]. apply N.eqb_eq in Hc. subst c.
      apply scan_number_sound in Hn as (n & Hnum & ->).
      exists (n ++ [unit]). split; [now constructor|].
      rewrite <- app_assoc. reflexivity.
    + intros [= <- <-]. exists []. split; [constructor | reflexivity].
  - intros [= <- <-]. exists []. split; [constructor | reflexivity].
Qed.

Lemma isdigit_spec d :
  isdigit d = true <-> d <> [] /\ Forall (fun c => is_digit c = true) d.
Proof.
  unfold isdigit. destruct d as [|c r].
  - split; [discriminate | intros [H _]; now elim H].
  - rewrite forallb_forall, Forall_forall. split.
    + intros H. split; [discriminate | exact H].
    + intros [_ H]. exact H.
Qed.

(** Every string for which [parse_duration] returns a value has the
    duration format or is a number of milliseconds. *)
Lemma parse_duration_sound d v :
  parse_duration d = Return v -> well_formed d.
Proof.
  unfold parse_duration. destruct (isdigit d) eqn:Hdig.
  - intros _. apply isdigit_spec in Hdig as [Hne Hall].
    split; [exact Hne | now left].
  - destruct (scan_component unit_h d) as [vh r1] eqn:Hh.
    destruct (scan_component unit_m (skip_spaces r1)) as [vm r2] eqn:Hm.
    destruct (scan_component unit_s (skip_spaces r2)) as [vs r3] eqn:Hs.
    destruct r3 as [|c r3]; [|discriminate].
    destruct d as [|c0 d0] eqn:Hd; [discriminate|]. rewrite <- Hd in *.
    intros _. split; [rewrite Hd; discriminate|]. right.
    apply scan_component_sound in Hh as (h & Hch & Ed).
    apply scan_component_sound in Hm as (m & Hcm & E1).
    apply scan_component_sound in Hs as (s & Hcs & E2).
    destruct (skip_spaces_split r1) as (w1 & Hw1 & F1).
    destruct (skip_spaces_split r2) as (w2 & Hw2 & F2).
    exists h, w1, m, w2, s. repeat (split; [assumption|]).
    rewrite app_nil_r in E2.
    rewrite Ed, F1, E1, F2, E2. reflexivity.
Qed.

(** ** The scanner accepts every string of the format *)

Lemma digits_head ds :
  digits ds -> exists c r, ds = c :: r /\ is_digit c = true.
Proof.
  intros [Hne Hall]. destruct ds as [|c r]; [now elim Hne|].
  exists c, r. split; [reflexivity | now inversion Hall].
Qed.

Lemma number_head n :
  number n -> exists c r, n = c :: r /\ is_digit c = true.
Proof.
  intros [ds H | ds d H _]; destruct (digits_head ds H) as (c & r & -> & Hc).
  - now exists c, r.
  - now exists c, (r ++ [dot; d]).
Qed.

Lemma scan_number_complete n u r :
  number n -> unit_char u ->
  exists v, scan_number (n ++ u :: r) = Some (v, u :: r).
Proof.
  intros Hn [Hu Hdot]. unfold scan_number.
  destruct Hn as [ds Hds | ds d Hds Hd].
  - rewrite span_app; [|apply Hds | exact Hu].
    destruct (digits_head ds Hds) as (c & ds' & -> & _).
    apply N.eqb_neq in Hdot.
    destruct r as [|d r']; [eauto|]. rewrite Hdot. simpl. eauto.
  - rewrite <- app_assoc. rewrite span_app; [|apply Hds | reflexivity].
    destruct (digits_head ds Hds) as (c & ds' & -> & _).
    simpl. rewrite Hd. simpl. eauto.
Qed.

Lemma scan_component_present unit n r :
  number n -> unit_char unit ->
  exists v, scan_component unit (n ++ unit :: r) = (v, r).
Proof.
  intros Hn Hu. unfold scan_component.
  destruct (scan_number_complete n unit r Hn Hu) as [v ->].
  rewrite N.eqb_refl. eauto.
Qed.

Lemma scan_component_other unit u n r :
  number n -> unit_char u -> u <> unit ->
  scan_component unit (n ++ u :: r) = (0%Z, n ++ u :: r).
Proof.
  intros Hn Hu Hneq. unfold scan_component.
  destruct (scan_number_complete n u r Hn Hu) as [v ->].
  apply N.eqb_neq in Hneq. now rewrite Hneq.
Qed.

Lemma scan_component_stops unit x :
  stops is_digit x -> scan_component unit x = (0%Z, x).
Proof.
  unfold scan_component, scan_number.
  destruct x as [|c r]; simpl; [reflexivity|]. now intros ->.
Qed.

Lemma unit_h_char : unit_char unit_h.
Proof. split; [reflexivity | discriminate]. Qed.

Lemma unit_m_char : unit_char unit_m.
Proof. split; [reflexivity | discriminate]. Qed.

Lemma unit_s_char : unit_char unit_s.
Proof. split; [reflexivity | discriminate]. Qed.

Lemma number_stops_space n x : number n -> stops is_space (n ++ x).
Proof.
  intros Hn. destruct (number_head n Hn) as (c & r & -> & Hc).
  simpl. now apply digit_not_space.
Qed.

Lemma seconds_stage w s :
  spaces w -> component unit_s s -> seconds_ok (w ++ s).
Proof.
  intros Hw Hs. unfold seconds_ok. rewrite skip_spaces_app by exact Hw.
  destruct Hs as [|n Hn].
  - exists 0%Z. reflexivity.
  - rewrite skip_spaces_stops by now apply number_stops_space.
    apply scan_component_present; [exact Hn | exact unit_s_char].
Qed.

Lemma minutes_stage w1 m w2 s :
  spaces w1 -> component unit_m m -> spaces w2 -> component unit_s s ->
  minutes_ok (w1 ++ m ++ w2 ++ s).
Proof.
  intros Hw1 Hm Hw2 Hs. unfold minutes_ok.
  rewrite skip_spaces_app by exact Hw1.
  destruct Hm as [|n Hn].
  - simpl. rewrite skip_spaces_app by exact Hw2.
    destruct Hs as [|n Hn].
    + exists 0%Z, []. split; [reflexivity|].
      apply (seconds_stage [] []); constructor.
    + rewrite skip_spaces_stops by now apply number_stops_space.
      exists 0%Z, (n ++ [unit_s]). split.
      * apply scan_component_other;
          [exact Hn | exact unit_s_char | discriminate].
      * apply (seconds_stage [] (n ++ [unit_s])); now constructor.
  - rewrite <- app_assoc.
    rewrite skip_spaces_stops by now apply number_stops_space.
    destruct (scan_component_present unit_m n (w2 ++ s) Hn unit_m_char)
      as [v Hv].
    exists v, (w2 ++ s). split; [exact Hv | now apply seconds_stage].
Qed.

Lemma hours_stage d : duration_format d -> hours_ok d.
Proof.
  intros (h & w1 & m & w2 & s & Hh & Hw1 & Hm & Hw2 & Hs & ->).
  unfold hours_ok.
  pose proof (minutes_stage w1 m w2 s Hw1 Hm Hw2 Hs) as Hrest.
  destruct Hh as [|n Hn].
  - exists 0%Z, (w1 ++ m ++ w2 ++ s). split; [|exact Hrest].
    simpl. clear Hrest.
    destruct Hw1 as [|c w1 Hc _].
    { simpl. destruct Hm as [|n Hn].
      - simpl. destruct Hw2 as [|c w2 Hc _].
        + simpl. destruct Hs as [|n Hn].
          * reflexivity.
          * apply scan_component_other;
              [exact Hn | exact unit_s_char | discriminate].
        + apply scan_component_stops. simpl. now apply space_not_digit.
      - rewrite <- app_assoc. apply scan_component_other;
          [exact Hn | exact unit_m_char | discriminate]. }
    apply scan_component_stops. simpl. now apply space_not_digit.
  - rewrite <- app_assoc.
    destruct (scan_component_present unit_h n (w1 ++ m ++ w2 ++ s) Hn
                unit_h_char) as [v Hv].
    exists v, (w1 ++ m ++ w2 ++ s). split; [exact Hv | exact Hrest].
Qed.

(** [parse_duration] returns a value for every well-formed string. *)
Lemma parse_duration_complete d :
  well_formed d -> exists v, parse_duration d = Return v.
Proof.
  intros [Hne [Hall | Hfmt]]; unfold parse_duration.
  - assert (Hdig : isdigit d = true) by now apply isdigit_spec.
    rewrite Hdig. eauto.
  - destruct (isdigit d); [eauto|].
    destruct (hours_stage d Hfmt)
      as (vh & r1 & -> & vm & r2 & -> & vs & ->).
    destruct d; [now elim Hne | eauto].
Qed.

Lemma parse_duration_raises d :
  parse_duration d = Raise ValueError <-> malformed d.
Proof.
  unfold malformed. split.
  - intros Hr Hwf. apply parse_duration_complete in Hwf as [v Hv].
    congruence.
  - intros Hmal. destruct (parse_duration d) as [v|[]] eqn:Hp.
    + elim Hmal. now apply parse_duration_sound in Hp.
    + reflexivity.
Qed.
(** ** The test tables *)

(** The rows of [TestEliding.test_elided]. *)
Lemma elide_test_table :
  elide (str_of "foo") 1 = Return [ELLIPSIS] /\
  elide (str_of "foo") 3 = Return (str_of "foo") /\
  elide (str_of "foobar") 3 = Return (str_of "fo" ++ [ELLIPSIS]).
Proof. repeat split. Qed.

(** The rows of [test_parse_duration]. *)
Lemma parse_duration_test_table :
  map (fun row => parse_duration (str_of (fst row)))
    [("0", 0); ("0s", 0); ("0.5s", 500); ("59s", 59000); ("60", 60);
     ("60.4s", 60400); ("1m1s", 61000); ("1.5m", 90000); ("1m", 60000);
     ("1h", 3600000); ("0.5h", 1800000); ("1h1s", 3601000);
     ("1h 1s", 3601000); ("1h1m", 3660000); ("1h1m1s", 3661000);
     ("1h1m10s", 3670000); ("10h1m10s", 36070000)]%Z
  = map (fun row => Return (snd row))
    [("0", 0); ("0s", 0); ("0.5s", 500); ("59s", 59000); ("60", 60);
     ("60.4s", 60400); ("1m1s", 61000); ("1.5m", 90000); ("1m", 60000);
     ("1h", 3600000); ("0.5h", 1800000); ("1h1s", 3601000);
     ("1h 1s", 3601000); ("1h1m", 3660000); ("1h1m1s", 3661000);
     ("1h1m10s", 3670000); ("10h1m10s", 36070000)]%Z.
Proof. vm_compute. reflexivity. Qed.

(** C6.  Eliding any string to zero characters raises [ValueError];
    [parse_duration] raises [ValueError] on every malformed duration
    string, that is, on every string that is neither a number of
    milliseconds nor of the hours-minutes-seconds format; and the strings
    of [test_parse_duration_invalid] are malformed and raise. *)
Theorem invalid_input_raises_ValueError :
  (forall text : str, elide text 0 = Raise ValueError) /\
  (forall d : str, malformed d -> parse_duration d = Raise ValueError) /\
  Forall (fun d : string =>
            malformed (str_of d) /\
            parse_duration (str_of d) = Raise ValueError)
    ["-1s"; "-1"; "34ss"; ""; "h"; "1.s"; "1.1.1s"; ".1s"; ".s"; "10e5s";
     "5s10m"].
Proof.
  split; [reflexivity|].
  split; [intros d; apply parse_duration_raises|].
  repeat (constructor;
          [split; [apply parse_duration_raises|]; vm_compute; reflexivity|]).
  constructor.
Qed.

Lemma invalid_input_raises_ValueError_witness :
  malformed (str_of "5s10m") /\
  parse_duration (str_of "5s10m") = Raise ValueError.
Proof.
  assert (M : malformed (str_of "5s10m"))
    by (apply parse_duration_raises; vm_compute; reflexivity).
  split; [exact M|].
  exact (proj1 (proj2 invalid_input_raises_ValueError) (str_of "5s10m") M).
Defined.

End UtilsFacts.

(** * Further properties of the statusbar *)

(** ** Draining the queue *)

Lemma ticks_step (k : nat) (s : StatusBar) :
  snd (ticks (S k) s) = snd (ticks k (_pop_text s)).
Proof. simpl. now destruct (ticks k (_pop_text s)). Qed.

Lemma pop_text_idle (s : StatusBar) :
  _text_queue s = [] -> idle (_pop_text s).
Proof.
  intros Hq. unfold _pop_text. rewrite Hq. repeat split. exact Hq.
Qed.

Lemma ticks_idle (k : nat) : forall s, idle s -> idle (snd (ticks k s)).
Proof.
  induction k as [|k IH]; intros s Hs; [exact Hs|].
  rewrite ticks_step. apply IH, pop_text_idle, Hs.
Qed.

(** X1.  With [n] messages pending, any number of ticks above [n] leaves the
    statusbar idle: the queue empty, the timer stopped, the error flag
    false and the temporary text empty. *)
Theorem ticks_drain_to_idle (k : nat) : forall s : StatusBar,
  (List.length (_text_queue s) < k)%nat -> idle (snd (ticks k s)).
Proof.
  induction k as [|k IH]; intros s Hk; [inversion Hk|].
  rewrite ticks_step.
  destruct (_text_queue s) as [|[err text] rest] eqn:Hq.
  - apply ticks_idle, pop_text_idle, Hq.
  - apply IH. unfold _pop_text. rewrite Hq. simpl in *. lia.
Qed.

Lemma ticks_drain_to_idle_witness :
  (List.length (_text_queue typing_command) < 3)%nat /\
  idle (snd (ticks 3 typing_command)).
Proof.
  assert (H : (List.length (_text_queue typing_command) < 3)%nat)
    by (simpl; lia).
  split; [exact H | exact (ticks_drain_to_idle 3 typing_command H)].
Defined.

(** X7.  Every tick goes through the [error] setter once, whether a message
    was pending or not: [k] ticks re-set the stylesheet [k] times. *)
Theorem ticks_restyle_each_time (k : nat) : forall s : StatusBar,
  stylesheet_sets (snd (ticks k s)) = (k + stylesheet_sets s)%nat.
Proof.
  induction k as [|k IH]; intros s; [reflexivity|].
  rewrite ticks_step, IH. unfold _pop_text.
  destruct (_text_queue s) as [|[err text] rest]; simpl; lia.
Qed.

(** ** No message is lost, duplicated or reordered *)

Lemma shown_app (l1 l2 : list LogRecord) :
  shown (l1 ++ l2) = shown l1 ++ shown l2.
Proof. unfold shown. apply flat_map_app. Qed.

Lemma pop_text_conserves (s : StatusBar) :
  shown (debug_log (_pop_text s)) ++ _text_queue (_pop_text s)
  = shown (debug_log s) ++ _text_queue s.
Proof.
  unfold _pop_text.
  destruct (_text_queue s) as [|[[|] text] rest] eqn:Hq; simpl;
    rewrite ?Hq, ?shown_app, <- ?app_assoc; reflexivity.
Qed.

Lemma slot_conserves (passthrough : list string) (sl : Slot) (s : StatusBar) :
  shown (debug_log (slot passthrough sl s))
    ++ _text_queue (slot passthrough sl s)
  = (shown (debug_log s) ++ _text_queue s) ++ slots_produced [sl].
Proof.
  destruct sl as [[text|text| | |]|val|mode|mode|val|config section option];
    simpl; rewrite ?app_nil_r.
  - unfold Deque.append. now rewrite app_assoc.
  - unfold Deque.append. now rewrite app_assoc.
  - apply pop_text_conserves.
  - reflexivity.
  - unfold _hide_cmd_widget.
    destruct (_ && _); simpl; [apply pop_text_conserves | reflexivity].
  - reflexivity.
  - unfold on_mode_entered. now destruct (mode_in mode passthrough).
  - unfold on_mode_left. now destruct (mode_in mode passthrough).
  - unfold on_statusbar_message. now destruct (str_truthy val).
  - unfold on_config_changed. now destruct (_ && _).
Qed.

Lemma run_slots_conserves (passthrough : list string) (slots : list Slot) :
  forall s0,
    shown (debug_log (run_slots passthrough slots s0))
      ++ _text_queue (run_slots passthrough slots s0)
    = (shown (debug_log s0) ++ _text_queue s0) ++ slots_produced slots.
Proof.
  induction slots as [|sl slots IH]; intros s0; simpl.
  - now rewrite app_nil_r.
  - rewrite IH, slot_conserves. simpl. now rewrite app_nil_r, <- !app_assoc.
Qed.

(** X2.  Whatever the interleaving of producer calls, ticks, showing and
    hiding of the command widget and the other slots, the messages
    displayed so far followed by the messages still queued are exactly
    the messages enqueued, in the order they were enqueued. *)
Theorem messages_conserved (passthrough : list string) (slots : list Slot)
    (config : Config) (geom : QRect) :
  let s := run_slots passthrough slots (__init__ config geom) in
  shown (debug_log s) ++ _text_queue s = slots_produced slots.
Proof. simpl. now rewrite run_slots_conserves. Qed.

(** ** The invariant over all slots *)

Lemma pending_ticks_slot (passthrough : list string) (sl : Slot)
    (s : StatusBar) :
  pending_ticks s -> pending_ticks (slot passthrough sl s).
Proof.
  destruct sl as [c|val|mode|mode|val|config section option]; simpl.
  - apply pending_ticks_call.
  - trivial.
  - unfold on_mode_entered. now destruct (mode_in mode passthrough).
  - unfold on_mode_left. now destruct (mode_in mode passthrough).
  - unfold on_statusbar_message. now destruct (str_truthy val).
  - unfold on_config_changed. now destruct (_ && _).
Qed.

(** X3.  The invariant of the queue and the timer survives every slot of the
    statusbar, not only the five queue operations: after any sequence of
    slot calls on a fresh statusbar, if the text widget is the current
    one and messages are pending, the pop timer is active. *)
Theorem pending_ticks_all_slots (passthrough : list string)
    (slots : list Slot) (config : Config) (geom : QRect) :
  let s := run_slots passthrough slots (__init__ config geom) in
  _stack s = CurrentTxt -> _text_queue s <> [] -> timer_active s = true.
Proof.
  simpl.
  enough (H : forall s0, pending_ticks s0 ->
                         pending_ticks (run_slots passthrough slots s0))
    by (apply H, pending_ticks_init).
  induction slots as [|sl slots IH]; intros s0 H0; simpl.
  - exact H0.
  - apply IH. now apply pending_ticks_slot.
Qed.

Lemma pending_ticks_all_slots_witness :
  let s := run_slots ["insert"]
             [slot_on_mode_entered "insert"; slot_call (call_disp_error "boom");
              slot_on_statusbar_message "Loading";
              slot_on_config_changed default_config "general" "message-timeout"]
             fresh in
  _stack s = CurrentTxt /\ _text_queue s <> [] /\ timer_active s = true.
Proof.
  simpl.
  pose proof (pending_ticks_all_slots ["insert"]
    [slot_on_mode_entered "insert"; slot_call (call_disp_error "boom");
     slot_on_statusbar_message "Loading";
     slot_on_config_changed default_config "general" "message-timeout"]
    default_config (geometry fresh)) as H.
  split; [reflexivity|]. split; [discriminate|].
  apply H; [reflexivity | discriminate].
Defined.

(** ** The timer interval *)

Lemma call_keeps_interval (c : Call) (s : StatusBar) :
  QTimer.interval (_text_pop_timer (call c s))
  = QTimer.interval (_text_pop_timer s).
Proof.
  destruct c; simpl; try reflexivity.
  - unfold _pop_text. now destruct (_text_queue s) as [|[err text] rest].
  - unfold _hide_cmd_widget, _pop_text.
    destruct (_ && _); [|reflexivity].
    now destruct (_text_queue s) as [|[err text] rest].
Qed.

(** X4.  Producers, ticks, showing and hiding start and stop the timer but
    never change its interval: after any sequence of them the interval is
    the message timeout read from the configuration at construction. *)
Theorem interval_is_configured (config : Config) (geom : QRect)
    (calls : list Call) :
  QTimer.interval (_text_pop_timer (run calls (__init__ config geom)))
  = config "general" "message-timeout".
Proof.
  enough (H : forall s0,
             QTimer.interval (_text_pop_timer (run calls s0))
             = QTimer.interval (_text_pop_timer s0))
    by (rewrite H; reflexivity).
  induction calls as [|c calls IH]; intros s0; simpl; [reflexivity|].
  change (run (c :: calls) s0) with (run calls (call c s0)).
  now rewrite IH, call_keeps_interval.
Qed.

(** X5.  [on_config_changed] reacts to one option only.  For section
    [general], option [message-timeout] it sets the interval to the
    configured value and touches nothing else: a running timer keeps
    running, a stopped one stays stopped.  For every other section or
    option it leaves the statusbar as it is. *)
Theorem on_config_changed_only_timeout (config : Config)
    (section option : string) (s : StatusBar) :
  (QTimer.interval
     (_text_pop_timer (on_config_changed config "general" "message-timeout" s))
   = config "general" "message-timeout" /\
   timer_active (on_config_changed config "general" "message-timeout" s)
   = timer_active s /\
   _text_queue (on_config_changed config "general" "message-timeout" s)
   = _text_queue s /\
   displayed (on_config_changed config "general" "message-timeout" s)
   = displayed s) /\
  (section <> "general" \/ option <> "message-timeout" ->
   on_config_changed config section option s = s).
Proof.
  split; [repeat split|].
  intros H. unfold on_config_changed.
  destruct H as [H | H]; apply String.eqb_neq in H; rewrite H;
    rewrite ?andb_false_r; reflexivity.
Qed.

Lemma on_config_changed_only_timeout_witness :
  on_config_changed (fun _ _ => 5000%Z) "general" "editor" one_pending
  = one_pending.
Proof.
  apply (on_config_changed_only_timeout (fun _ _ => 5000%Z)
           "general" "editor" one_pending).
  right. discriminate.
Defined.

(** ** Mode markers *)

(** X6.  Entering a passthrough mode writes the marker text, leaving it writes
    the empty string: the persistent text set before through [set_text]
    is not restored.  For a mode that is not a passthrough mode both
    slots leave the statusbar as it is.  The temporary text is never
    involved. *)
Theorem mode_marker_round_trip (passthrough : list string)
    (mode : string) (s : StatusBar) :
  (mode_in mode passthrough = true ->
   normaltext (txt (on_mode_entered passthrough mode s))
   = ("-- " ++ upper mode ++ " MODE --")%string /\
   normaltext
     (txt (on_mode_left passthrough mode (on_mode_entered passthrough mode s)))
   = "" /\
   temptext
     (txt (on_mode_left passthrough mode (on_mode_entered passthrough mode s)))
   = temptext (txt s)) /\
  (mode_in mode passthrough = false ->
   on_mode_entered passthrough mode s = s /\
   on_mode_left passthrough mode s = s).
Proof.
  unfold on_mode_entered, on_mode_left.
  split; intros ->; repeat split.
Qed.

Lemma mode_marker_round_trip_witness :
  normaltext (txt (on_mode_entered ["insert"; "passthrough"] "insert"
                     (set_text "hello" fresh)))
  = "-- INSERT MODE --" /\
  normaltext (txt (on_mode_left ["insert"; "passthrough"] "insert"
                     (on_mode_entered ["insert"; "passthrough"] "insert"
                        (set_text "hello" fresh))))
  = "" /\
  on_mode_entered ["insert"; "passthrough"] "normal" (set_text "hello" fresh)
  = set_text "hello" fresh.
Proof.
  destruct (mode_marker_round_trip ["insert"; "passthrough"] "insert"
              (set_text "hello" fresh)) as [Hin _].
  destruct (Hin eq_refl) as (He & Hl & _).
  destruct (mode_marker_round_trip ["insert"; "passthrough"] "normal"
              (set_text "hello" fresh)) as [_ Hout].
  destruct (Hout eq_refl) as (Hn & _).
  split; [exact He|]. split; [exact Hl | exact Hn].
Defined.

(** ** Showing and hiding twice *)

(** X8.  A second [hide_cmd] signal in a row does nothing: it does not pop a
    second message.  Likewise for [show_cmd]. *)
Theorem show_hide_idempotent (s : StatusBar) :
  _hide_cmd_widget (_hide_cmd_widget s) = _hide_cmd_widget s /\
  _show_cmd_widget (_show_cmd_widget s) = _show_cmd_widget s.
Proof.
  destruct s as [e t q [a i] st g n em lg]. split; [|reflexivity].
  unfold _hide_cmd_widget, _pop_text. simpl.
  destruct q as [|[err text] rest]; simpl; [reflexivity|].
  destruct a; simpl; [reflexivity|].
  destruct rest; reflexivity.
Qed.

(** X9.  When the command widget is shown with nothing pending and hidden
    again, the timer is not restarted: the message last displayed and its
    error flag stay on display, and no tick is due to clear them. *)
Theorem interlude_on_empty_queue_keeps_display (s : StatusBar) :
  _text_queue s = [] ->
  timer_active (_hide_cmd_widget (_show_cmd_widget s)) = false /\
  displayed (_hide_cmd_widget (_show_cmd_widget s)) = displayed s /\
  _text_queue (_hide_cmd_widget (_show_cmd_widget s)) = [].
Proof.
  intros Hq. unfold _hide_cmd_widget, _show_cmd_widget. simpl.
  rewrite Hq. simpl. repeat split. exact Hq.
Qed.

Lemma interlude_on_empty_queue_keeps_display_witness :
  _text_queue just_drained = [] /\
  timer_active just_drained = true /\
  timer_active (_hide_cmd_widget (_show_cmd_widget just_drained)) = false /\
  displayed (_hide_cmd_widget (_show_cmd_widget just_drained))
  = (true, "boom").
Proof.
  destruct (interlude_on_empty_queue_keeps_display just_drained eq_refl)
    as (Ht & Hd & _).
  split; [reflexivity|]. split; [reflexivity|].
  split; [exact Ht | rewrite Hd; reflexivity].
Defined.

(** ** What is on display *)

Lemma run_as_slots (passthrough : list string) (calls : list Call) :
  forall s, run calls s = run_slots passthrough (map slot_call calls) s.
Proof.
  induction calls as [|c calls IH]; intros s; [reflexivity|].
  change (run (c :: calls) s) with (run calls (call c s)).
  now rewrite IH.
Qed.

Lemma slots_produced_calls (calls : list Call) :
  slots_produced (map slot_call calls) = produced calls.
Proof.
  induction calls as [|c calls IH]; simpl; [reflexivity|].
  f_equal. exact IH.
Qed.

Lemma shows_logged_pop (s : StatusBar) : shows_logged (_pop_text s).
Proof.
  unfold shows_logged, _pop_text.
  destruct (_text_queue s) as [|[[|] text] rest]; simpl.
  - now left.
  - right. rewrite !shown_app, !in_app_iff. left. right. now left.
  - right. rewrite !shown_app, !in_app_iff. left. right. now left.
Qed.

Lemma shows_logged_call (c : Call) (s : StatusBar) :
  shows_logged s -> shows_logged (call c s).
Proof.
  destruct c; simpl; try (intros H; exact H).
  - intros _. apply shows_logged_pop.
  - intros H. unfold _hide_cmd_widget. destruct (_ && _); [|exact H].
    apply (shows_logged_pop s).
Qed.

(** X10.  Under producer calls, ticks, showing and hiding, the statusbar never
    displays a message that was not enqueued: error flag and temporary
    text are either cleared or those of a message passed to [disp_error]
    or [disp_temp_text] earlier. *)
Theorem displayed_was_enqueued (config : Config) (geom : QRect)
    (calls : list Call) :
  let s := run calls (__init__ config geom) in
  displayed s = (false, "") \/ In (displayed s) (produced calls).
Proof.
  simpl.
  assert (H : shows_logged (run calls (__init__ config geom))).
  { enough (G : forall s0, shows_logged s0 -> shows_logged (run calls s0))
      by (apply G; now left).
    induction calls as [|c calls IH]; intros s0 H0; [exact H0|].
    change (run (c :: calls) s0) with (run calls (call c s0)).
    now apply IH, shows_logged_call. }
  destruct H as [H | H]; [now left | right].
  rewrite <- slots_produced_calls.
  pose proof (run_slots_conserves [] (map slot_call calls)
                (__init__ config geom)) as E.
  change ((shown (debug_log (__init__ config geom))
             ++ _text_queue (__init__ config geom))
            ++ slots_produced (map slot_call calls))
    with (slots_produced (map slot_call calls)) in E.
  rewrite <- E, <- run_as_slots. apply in_or_app. now left.
Qed.
